(** * DNA reverse complement tool: the transform [get_reverse_complement]

    A shallow embedding of [get_reverse_complement] (code.ipynb, lines 11-42)
    and the properties its specification states about it.

    A Python [str] is a sequence of Unicode code points.  A character is
    represented by its code point ([ord] in Python), a natural number, and
    a string by the list of its characters, so that the statements below
    range over every string the function can receive and not only over
    8-bit text.  The dictionary [complement_map] is a [gmap], the set
    [valid_chars] a [gset]; exceptions are the error side of a small
    result monad.

    The interactive shell [main] (lines 45-75) and the body of the script
    (lines 79-97) are functions from what [input] finds to what is
    printed, what is left unread and how the run ends.  The first version
    of the transform, from the tutorial (part_000, lines 90-100), is
    embedded beside the final one. *)

From Stdlib Require Import NArith Ascii String.
From stdpp Require Import gmap strings list.

Local Open Scope N_scope.

(** ** Characters and strings *)

(** The code point of an 8-bit character literal. *)
Definition ord (c : ascii) : N := N_of_ascii c.

(** The string denoted by a literal, as the list of its code points. *)
Definition str (s : string) : list N := ord <$> list_ascii_of_string s.

(** ** Exceptions *)

(** The two exceptions the body of the function can raise: the explicit
    [ValueError] of line 36, whose message renders the set [invalid_chars],
    and the [KeyError] of a failed dictionary subscript on line 39. *)
Inductive exn : Type :=
  | ValueError (invalid_chars : gset N)
  | KeyError (key : N).

Inductive result (A : Type) : Type :=
  | Return (a : A)
  | Raise (e : exn).
Arguments Return {A} a.
Arguments Raise {A} e.

Definition bind {A B : Type} (m : result A) (k : A → result B) : result B :=
  match m with
  | Return a => k a
  | Raise e => Raise e
  end.

Notation "'let*' x ':=' m 'in' k" := (bind m (fun x => k))
  (at level 10, x name, m at level 100, k at level 200).

(** ** The function *)

(** Lines 25-30. *)
Definition complement_map : gmap N N :=
  list_to_map
    [ (ord "A", ord "T"); (ord "T", ord "A");
      (ord "G", ord "C"); (ord "C", ord "G");
      (ord "a", ord "t"); (ord "t", ord "a");
      (ord "g", ord "c"); (ord "c", ord "g") ].

(** Line 33: [set('ATGCatgc')]. *)
Definition valid_chars : gset N := list_to_set (str "ATGCatgc").

(** Line 34: [all(char in valid_chars for char in sequence)]. *)
Definition all_valid (sequence : list N) : bool :=
  forallb (fun char => bool_decide (char ∈ valid_chars)) sequence.

(** Line 39: [''.join(complement_map[base] for base in sequence)].  The
    generator is consumed from left to right; the first subscript that
    fails raises and ends the join. *)
Fixpoint join_complement (sequence : list N) : result (list N) :=
  match sequence with
  | [] => Return []
  | base :: rest =>
      match complement_map !! base with
      | None => Raise (KeyError base)
      | Some b => let* complement := join_complement rest in Return (b :: complement)
      end
  end.

(** Lines 32-42. *)
Definition get_reverse_complement (sequence : list N) : result (list N) :=
  if negb (all_valid sequence) then
    let invalid_chars := list_to_set sequence ∖ valid_chars in
    Raise (ValueError invalid_chars)
  else
    let* complement := join_complement sequence in
    Return (reverse complement).

(** ** The specification's vocabulary *)

(** The allowed alphabet {A,T,G,C,a,t,g,c}. *)
Definition alphabet : list N :=
  [ ord "A"; ord "T"; ord "G"; ord "C"; ord "a"; ord "t"; ord "g"; ord "c" ].

(** A valid sequence: every character lies in the alphabet. *)
Definition valid_sequence (s : list N) : Prop := Forall (.∈ alphabet) s.

(** The complement rule of the specification, case by case: A and T are
    exchanged, G and C are exchanged, and the same for the lowercase
    letters.  The rule says nothing about other characters, which are
    left as they are here. *)
Definition complement_base (c : N) : N :=
  if decide (c = ord "A") then ord "T"
  else if decide (c = ord "T") then ord "A"
  else if decide (c = ord "G") then ord "C"
  else if decide (c = ord "C") then ord "G"
  else if decide (c = ord "a") then ord "t"
  else if decide (c = ord "t") then ord "a"
  else if decide (c = ord "g") then ord "c"
  else if decide (c = ord "c") then ord "g"
  else c.

(** The transform as the specification words it: substitute every
    character in the original order, then reverse. *)
Definition spec_reverse_complement (s : list N) : list N :=
  reverse (complement_base <$> s).

(** Uppercase and lowercase Latin letters. *)
Definition is_upper (c : N) : bool := (ord "A" <=? c) && (c <=? ord "Z").
Definition is_lower (c : N) : bool := (ord "a" <=? c) && (c <=? ord "z").

(** The two complement classes and the number of characters of a
    sequence drawn from a class. *)
Definition AT_class : list N := [ ord "A"; ord "T"; ord "a"; ord "t" ].
Definition GC_class : list N := [ ord "G"; ord "C"; ord "g"; ord "c" ].

Definition count_class (cls s : list N) : nat := length (filter (.∈ cls) s).

(** ** The first version of the function *)

(** part_000, lines 90-100 ("Complete Basic Function"): the same
    dictionary, the join and the reversal, without the validation. *)
Definition get_reverse_complement_basic (sequence : list N) : result (list N) :=
  let* complement := join_complement sequence in
  Return (reverse complement).

(** ** The interactive shell *)

(** What the shell takes from the Python runtime and the repository does
    not define: [str.isspace] on one character, [str.lower], and the
    rendering of a set of characters inside an f-string, whose order of
    elements the language leaves open. *)
Class Runtime : Type := {
  isspace : N → bool;
  lower : list N → list N;
  repr_set : gset N → list N
}.

(** [str.strip()]: leading and trailing whitespace is removed. *)
Fixpoint lstrip `{rt : Runtime} (text : list N) : list N :=
  match text with
  | [] => []
  | c :: rest => if isspace c then lstrip rest else text
  end.

Definition strip `{rt : Runtime} (text : list N) : list N :=
  reverse (lstrip (reverse (lstrip text))).

(** The line feed inside a string literal. *)
Definition nl : list N := [10].

(** The message of the [ValueError] of line 36. *)
Definition message `{rt : Runtime} (invalid_chars : gset N) : list N :=
  str "Invalid characters found in sequence: " ++ repr_set invalid_chars.

(** What one call of [input] finds: a line of text, or an interrupt from
    the keyboard.  When nothing is left to read, [input] raises
    [EOFError]. *)
Inductive stdin_event : Type :=
  | Line (text : list N)
  | Interrupt.

(** What the program writes: the text of one [print] call (the line feed
    that ends it is left implicit) or the prompt of one [input] call. *)
Inductive stdout_event : Type :=
  | Print (text : list N)
  | Prompt (text : list N).

(** How a run ends: normally, or with an exception nobody caught. *)
Inductive outcome : Type :=
  | Finished
  | RaisedEOFError
  | Raised (e : exn).

Record run : Type := {
  stdout : list stdout_event;
  unread : list stdin_event;
  ending : outcome
}.

Definition ended (stdin : list stdin_event) (o : outcome) : run :=
  {| stdout := []; unread := stdin; ending := o |}.

Definition say (out : list stdout_event) (r : run) : run :=
  {| stdout := out ++ stdout r; unread := unread r; ending := ending r |}.

(** Lines 54-75: the loop of [main].  Only [ValueError] and
    [KeyboardInterrupt] are caught. *)
Fixpoint main_loop `{rt : Runtime} (stdin : list stdin_event) : run :=
  match stdin with
  | [] =>
      say [Prompt (str "Enter DNA sequence: ")] (ended [] RaisedEOFError)
  | Interrupt :: rest =>
      say [Prompt (str "Enter DNA sequence: ");
           Print (nl ++ str "Goodbye!")] (ended rest Finished)
  | Line text :: rest =>
      let sequence := strip text in
      if bool_decide (lower sequence ∈ [str "quit"; str "exit"; str ""]) then
        say [Prompt (str "Enter DNA sequence: ");
             Print (str "Goodbye!")] (ended rest Finished)
      else
        match get_reverse_complement sequence with
        | Return reverse_comp =>
            say [Prompt (str "Enter DNA sequence: ");
                 Print (str "Original:          5'-" ++ sequence ++ str "-3'");
                 Print (str "Reverse complement: 3'-" ++ reverse_comp ++ str "-5'");
                 Print []] (main_loop rest)
        | Raise (ValueError invalid_chars) =>
            say [Prompt (str "Enter DNA sequence: ");
                 Print (str "Error: " ++ message invalid_chars);
                 Print (str "Please enter a valid DNA sequence using only A, T, G, C" ++ nl)]
              (main_loop rest)
        | Raise (KeyError key) =>
            say [Prompt (str "Enter DNA sequence: ")]
              (ended rest (Raised (KeyError key)))
        end
  end.

(** Lines 49-52. *)
Definition banner : list stdout_event :=
  [ Print (str "DNA Reverse Complement Tool");
    Print (replicate 30 (ord "="));
    Print (str "Enter DNA sequences (A, T, G, C only)");
    Print (str "Type 'quit' or 'exit' to stop" ++ nl) ].

(** Lines 45-75. *)
Definition main `{rt : Runtime} (stdin : list stdin_event) : run :=
  say banner (main_loop stdin).

(** ** The script *)

(** Lines 81-87. *)
Definition test_sequences : list (list N) :=
  [ str "ATCG"; str "AAATTTGGGCCC"; str "GAATTC"; str "AAGCTT"; str "atcg" ].

(** The format [{seq:15}]: a string is padded with spaces on the right up
    to the width, and never cut. *)
Definition ljust (width : nat) (text : list N) : list N :=
  text ++ replicate (width - length text) (ord " ").

(** Lines 91-93: no exception is caught here. *)
Fixpoint test_loop (seqs : list (list N)) (stdin : list stdin_event) : run :=
  match seqs with
  | [] => ended stdin Finished
  | seq :: seqs =>
      match get_reverse_complement seq with
      | Return result =>
          say [Print (ljust 15 seq ++ str " -> " ++ result)]
            (test_loop seqs stdin)
      | Raise e => ended stdin (Raised e)
      end
  end.

(** Sequencing: the second part runs when the first ended normally. *)
Definition and_then (r : run) (k : list stdin_event → run) : run :=
  match ending r with
  | Finished => say (stdout r) (k (unread r))
  | _ => r
  end.

(** Lines 79-97: the body of the script. *)
Definition script `{rt : Runtime} (stdin : list stdin_event) : run :=
  and_then
    (say [Print (str "Test Results:"); Print (replicate 40 (ord "-"))]
       (and_then (test_loop test_sequences stdin)
          (fun stdin => say [Print []] (ended stdin Finished))))
    main.

(** ** A runtime for plain text *)

(** The whitespace and the lowercase of ASCII, on which the model runs. *)
Definition ascii_isspace (c : N) : bool :=
  bool_decide (c ∈ [9; 10; 11; 12; 13; 28; 29; 30; 31; 32]).

Definition to_lower (c : N) : N := if is_upper c then c + 32 else c.

Fixpoint comma_separated (items : list (list N)) : list N :=
  match items with
  | [] => []
  | [item] => item
  | item :: items => item ++ str ", " ++ comma_separated items
  end.

(** One rendering of a set of characters that need no escaping: the
    elements between quotes, in the order [elements] lists them. *)
Definition ascii_repr_set (chars : gset N) : list N :=
  match elements chars with
  | [] => str "set()"
  | items =>
      str "{" ++ comma_separated ((fun c => str "'" ++ [c] ++ str "'") <$> items)
        ++ str "}"
  end.

Definition ascii_runtime : Runtime :=
  {| isspace := ascii_isspace;
     lower := fmap to_lower;
     repr_set := ascii_repr_set |}.

(** What the shell needs to know of the runtime on the alphabet: no base
    is whitespace, and lowercasing a sequence of bases is done letter by
    letter. *)
Definition alphabet_no_space `{rt : Runtime} : Prop :=
  ∀ c, c ∈ alphabet → isspace c = false.

Definition alphabet_lower `{rt : Runtime} : Prop :=
  ∀ s, valid_sequence s → lower s = to_lower <$> s.

(** The stopping events of the shell: an interrupt, or a line that is one
    of the exit words once stripped and lowercased. *)
Definition stops `{rt : Runtime} (e : stdin_event) : bool :=
  match e with
  | Interrupt => true
  | Line text =>
      bool_decide (lower (strip text) ∈ [str "quit"; str "exit"; str ""])
  end.

(** Case analysis on a membership hypothesis in a literal list. *)
Ltac letters H :=
  repeat (apply elem_of_cons in H as [-> | H]);
  [ .. | by apply elem_of_nil in H ].

(** ** Running the function *)

Example run_ATCG : get_reverse_complement (str "ATCG") = Return (str "CGAT").
Proof. vm_compute. reflexivity. Qed.

Example run_ATCGX :
  get_reverse_complement (str "ATCGX") = Raise (ValueError {[ ord "X" ]}).
Proof. vm_compute. reflexivity. Qed.

(** ** The alphabet, the set and the dictionary *)

Lemma elem_of_valid_chars c : c ∈ valid_chars ↔ c ∈ alphabet.
Proof.
  unfold valid_chars. rewrite elem_of_list_to_set.
  split; intros H; letters H; vm_compute; repeat constructor.
Qed.

Lemma all_valid_true s : all_valid s = true ↔ valid_sequence s.
Proof.
  unfold all_valid, valid_sequence.
  induction s as [|c s IH]; simpl.
  - split; [constructor | done].
  - rewrite andb_true_iff, Forall_cons, IH, bool_decide_eq_true.
    by rewrite elem_of_valid_chars.
Qed.

Lemma all_valid_false s : all_valid s = false ↔ ¬ valid_sequence s.
Proof. rewrite <- all_valid_true. by destruct (all_valid s). Qed.

Lemma complement_map_lookup c :
  c ∈ alphabet → complement_map !! c = Some (complement_base c).
Proof. intros H. letters H; by vm_compute. Qed.

Lemma complement_map_lookup_None c :
  c ∉ alphabet → complement_map !! c = None.
Proof.
  intros H. apply not_elem_of_list_to_map. simpl. intros Hc.
  apply H. letters Hc; vm_compute; repeat constructor.
Qed.

Lemma complement_base_alphabet c : c ∈ alphabet → complement_base c ∈ alphabet.
Proof. intros H. letters H; vm_compute; repeat constructor. Qed.

Lemma complement_base_involutive c :
  c ∈ alphabet → complement_base (complement_base c) = c.
Proof. intros H. letters H; by vm_compute. Qed.

Lemma complement_base_case c :
  c ∈ alphabet →
  is_upper (complement_base c) = is_upper c ∧
  is_lower (complement_base c) = is_lower c.
Proof. intros H. letters H; by vm_compute. Qed.

Lemma complement_base_class cls c :
  cls = AT_class ∨ cls = GC_class →
  c ∈ alphabet → (complement_base c ∈ cls ↔ c ∈ cls).
Proof.
  intros [-> | ->] H; letters H;
    by apply (bool_decide_unpack _); vm_compute.
Qed.

(** ** The two paths of the function *)

Lemma join_complement_valid s :
  valid_sequence s → join_complement s = Return (complement_base <$> s).
Proof.
  induction 1 as [|c s Hc _ IH]; simpl; [done|].
  by rewrite (complement_map_lookup c Hc), IH.
Qed.

Lemma get_reverse_complement_valid s :
  valid_sequence s →
  get_reverse_complement s = Return (spec_reverse_complement s).
Proof.
  intros Hs. unfold get_reverse_complement.
  rewrite (proj2 (all_valid_true s) Hs); simpl.
  by rewrite (join_complement_valid s Hs).
Qed.

Lemma get_reverse_complement_invalid s :
  ¬ valid_sequence s →
  get_reverse_complement s =
    Raise (ValueError (list_to_set s ∖ valid_chars)).
Proof.
  intros Hs. unfold get_reverse_complement.
  by rewrite (proj2 (all_valid_false s) Hs).
Qed.

Lemma valid_sequence_dec s : valid_sequence s ∨ ¬ valid_sequence s.
Proof. destruct (decide (valid_sequence s)); auto. Qed.

Lemma not_valid_sequence s :
  ¬ valid_sequence s ↔ ∃ c, c ∈ s ∧ c ∉ alphabet.
Proof.
  unfold valid_sequence. rewrite <- Exists_Forall_neg, Exists_exists; [done|].
  intros c. destruct (decide (c ∈ alphabet)); auto.
Qed.

Lemma spec_reverse_complement_valid s :
  valid_sequence s → valid_sequence (spec_reverse_complement s).
Proof.
  unfold valid_sequence, spec_reverse_complement.
  rewrite Forall_reverse, Forall_fmap. intros Hs.
  eapply Forall_impl; [exact Hs|]. intros c. apply complement_base_alphabet.
Qed.

Lemma spec_reverse_complement_involutive s :
  valid_sequence s →
  spec_reverse_complement (spec_reverse_complement s) = s.
Proof.
  unfold spec_reverse_complement. intros Hs.
  rewrite fmap_reverse, reverse_involutive, <- list_fmap_compose.
  rewrite <- (list_fmap_id s) at 2.
  apply Forall_fmap_ext. eapply Forall_impl; [exact Hs|].
  intros c. apply complement_base_involutive.
Qed.

Lemma spec_reverse_complement_app s t :
  spec_reverse_complement (s ++ t) =
    spec_reverse_complement t ++ spec_reverse_complement s.
Proof.
  unfold spec_reverse_complement. by rewrite fmap_app, reverse_app.
Qed.

Lemma spec_reverse_complement_lookup s i c :
  s !! i = Some c →
  spec_reverse_complement s !! (length s - 1 - i)%nat =
    Some (complement_base c).
Proof.
  intros Hi. pose proof (lookup_lt_Some _ _ _ Hi) as Hlt.
  unfold spec_reverse_complement.
  rewrite reverse_lookup by (rewrite length_fmap; lia).
  rewrite length_fmap, list_lookup_fmap.
  replace (length s - S (length s - 1 - i))%nat with i by lia.
  by rewrite Hi.
Qed.

Lemma count_class_complement cls s :
  cls = AT_class ∨ cls = GC_class →
  valid_sequence s →
  count_class cls (spec_reverse_complement s) = count_class cls s.
Proof.
  intros Hcls Hs. unfold count_class, spec_reverse_complement.
  rewrite filter_reverse, length_reverse.
  induction Hs as [|c s Hc _ IH]; [done|].
  rewrite fmap_cons, !filter_cons.
  pose proof (complement_base_class cls c Hcls Hc) as Hiff.
  destruct (decide (complement_base c ∈ cls)), (decide (c ∈ cls));
    simpl; rewrite ?IH; tauto.
Qed.

(** ** The properties of the specification *)

(** C1.  On a sequence over the alphabet, [get_reverse_complement] returns
    the reversal of the sequence obtained by substituting each character,
    in the original order, with its case-preserving complement.  The
    character at position [i] of the input decides the character at the
    mirrored position of the output, and an uppercase (lowercase) input
    character gives an uppercase (lowercase) output character there. *)
Theorem reverse_complement_correct (s : list N) :
  valid_sequence s →
  ∃ out,
    get_reverse_complement s = Return out ∧
    out = reverse (complement_base <$> s) ∧
    ∀ i c, s !! i = Some c →
      ∃ d, out !! (length s - 1 - i)%nat = Some d ∧
           d = complement_base c ∧
           (is_upper c = true → is_upper d = true) ∧
           (is_lower c = true → is_lower d = true).
Proof.
  intros Hs. exists (spec_reverse_complement s).
  split; [by apply get_reverse_complement_valid|].
  split; [done|].
  intros i c Hi. exists (complement_base c).
  split; [by apply spec_reverse_complement_lookup|].
  split; [done|].
  assert (c ∈ alphabet) as Hc by exact (Forall_lookup_1 _ _ _ _ Hs Hi).
  destruct (complement_base_case c Hc) as [-> ->]. tauto.
Qed.

Lemma reverse_complement_correct_witness :
  valid_sequence (str "aTCg") ∧
  ∃ out,
    get_reverse_complement (str "aTCg") = Return out ∧
    out = reverse (complement_base <$> str "aTCg") ∧
    ∀ i c, str "aTCg" !! i = Some c →
      ∃ d, out !! (length (str "aTCg") - 1 - i)%nat = Some d ∧
           d = complement_base c ∧
           (is_upper c = true → is_upper d = true) ∧
           (is_lower c = true → is_lower d = true).
Proof.
  assert (valid_sequence (str "aTCg")) as Hs
    by (vm_compute; repeat constructor).
  split; [exact Hs | exact (reverse_complement_correct (str "aTCg") Hs)].
Defined.

(** C2.  [get_reverse_complement] raises the validation error exactly when
    some character of the sequence is outside the alphabet.  The error
    then carries the set of all the characters of the sequence that are
    outside the alphabet, and no output is returned. *)
Theorem invalid_sequence_error (s : list N) :
  ((∃ c, c ∈ s ∧ c ∉ alphabet) ↔
   ∃ invalid_chars, get_reverse_complement s = Raise (ValueError invalid_chars)) ∧
  ∀ invalid_chars,
    get_reverse_complement s = Raise (ValueError invalid_chars) →
    (∀ c, c ∈ invalid_chars ↔ c ∈ s ∧ c ∉ alphabet) ∧
    ∀ out, get_reverse_complement s ≠ Return out.
Proof.
  rewrite <- not_valid_sequence.
  destruct (valid_sequence_dec s) as [Hs | Hs].
  - rewrite (get_reverse_complement_valid s Hs). split.
    + split; [done | by intros [? ?]].
    + by intros ? ?.
  - rewrite (get_reverse_complement_invalid s Hs). split.
    + split; eauto.
    + intros E [= <-]. split; [|done].
      intros c. rewrite elem_of_difference, elem_of_list_to_set.
      by rewrite elem_of_valid_chars.
Qed.

Lemma invalid_sequence_error_witness :
  get_reverse_complement (str "ATXCGxX") =
    Raise (ValueError {[ ord "X"; ord "x" ]}) ∧
  (∀ c, c ∈ ({[ ord "X"; ord "x" ]} : gset N) ↔
        c ∈ str "ATXCGxX" ∧ c ∉ alphabet) ∧
  ∀ out, get_reverse_complement (str "ATXCGxX") ≠ Return out.
Proof.
  assert (get_reverse_complement (str "ATXCGxX") =
            Raise (ValueError {[ ord "X"; ord "x" ]})) as Hrun
    by (vm_compute; reflexivity).
  split; [exact Hrun|].
  exact (proj2 (invalid_sequence_error (str "ATXCGxX")) _ Hrun).
Defined.

(** C3.  On a sequence over the alphabet, applying
    [get_reverse_complement] twice gives the sequence back. *)
Theorem reverse_complement_involution (s : list N) :
  valid_sequence s →
  ∃ out,
    get_reverse_complement s = Return out ∧
    get_reverse_complement out = Return s.
Proof.
  intros Hs. exists (spec_reverse_complement s).
  split; [by apply get_reverse_complement_valid|].
  rewrite get_reverse_complement_valid
    by (by apply spec_reverse_complement_valid).
  by rewrite spec_reverse_complement_involutive.
Qed.

Lemma reverse_complement_involution_witness :
  valid_sequence (str "AAATTTGGGCCC") ∧
  ∃ out,
    get_reverse_complement (str "AAATTTGGGCCC") = Return out ∧
    get_reverse_complement out = Return (str "AAATTTGGGCCC").
Proof.
  assert (valid_sequence (str "AAATTTGGGCCC")) as Hs
    by (vm_compute; repeat constructor).
  split; [exact Hs | exact (reverse_complement_involution _ Hs)].
Defined.

(** C4.  On a sequence over the alphabet, the output of
    [get_reverse_complement] has the length of the input. *)
Theorem reverse_complement_length (s : list N) :
  valid_sequence s →
  ∃ out,
    get_reverse_complement s = Return out ∧ length out = length s.
Proof.
  intros Hs. exists (spec_reverse_complement s).
  split; [by apply get_reverse_complement_valid|].
  unfold spec_reverse_complement. by rewrite length_reverse, length_fmap.
Qed.

Lemma reverse_complement_length_witness :
  valid_sequence (str "GAATTC") ∧
  ∃ out,
    get_reverse_complement (str "GAATTC") = Return out ∧
    length out = length (str "GAATTC").
Proof.
  assert (valid_sequence (str "GAATTC")) as Hs
    by (vm_compute; repeat constructor).
  split; [exact Hs | exact (reverse_complement_length _ Hs)].
Defined.

(** C5.  On a sequence over the alphabet, every character of the output of
    [get_reverse_complement] is in the alphabet. *)
Theorem reverse_complement_closed (s : list N) :
  valid_sequence s →
  ∃ out,
    get_reverse_complement s = Return out ∧
    ∀ c, c ∈ out → c ∈ alphabet.
Proof.
  intros Hs. exists (spec_reverse_complement s).
  split; [by apply get_reverse_complement_valid|].
  apply Forall_forall. by apply spec_reverse_complement_valid.
Qed.

Lemma reverse_complement_closed_witness :
  valid_sequence (str "AAGCtt") ∧
  ∃ out,
    get_reverse_complement (str "AAGCtt") = Return out ∧
    ∀ c, c ∈ out → c ∈ alphabet.
Proof.
  assert (valid_sequence (str "AAGCtt")) as Hs
    by (vm_compute; repeat constructor).
  split; [exact Hs | exact (reverse_complement_closed _ Hs)].
Defined.

(** C6.  The empty sequence is a valid input, and
    [get_reverse_complement] returns the empty sequence on it. *)
Theorem reverse_complement_empty :
  valid_sequence (str "") ∧
  get_reverse_complement (str "") = Return (str "").
Proof. split; [constructor | reflexivity]. Qed.

(** C7.  The concrete scenarios: "A" gives "T", "AT" gives "AT", "ATCG"
    gives "CGAT", "GAATTC" gives "GAATTC", "atcg" gives "cgat" and "AAGCTT"
    gives "AAGCTT". *)
Theorem reverse_complement_scenarios :
  get_reverse_complement (str "A") = Return (str "T") ∧
  get_reverse_complement (str "AT") = Return (str "AT") ∧
  get_reverse_complement (str "ATCG") = Return (str "CGAT") ∧
  get_reverse_complement (str "GAATTC") = Return (str "GAATTC") ∧
  get_reverse_complement (str "atcg") = Return (str "cgat") ∧
  get_reverse_complement (str "AAGCTT") = Return (str "AAGCTT").
Proof. repeat split; vm_compute; reflexivity. Qed.

(** C8.  On a sequence over the alphabet, the output of
    [get_reverse_complement] has as many characters of the class {A,T,a,t}
    as the input, and as many of the class {G,C,g,c}. *)
Theorem reverse_complement_classes (s : list N) :
  valid_sequence s →
  ∃ out,
    get_reverse_complement s = Return out ∧
    count_class AT_class out = count_class AT_class s ∧
    count_class GC_class out = count_class GC_class s.
Proof.
  intros Hs. exists (spec_reverse_complement s).
  split; [by apply get_reverse_complement_valid|].
  split; apply count_class_complement; auto.
Qed.

Lemma reverse_complement_classes_witness :
  valid_sequence (str "AAtGc") ∧
  ∃ out,
    get_reverse_complement (str "AAtGc") = Return out ∧
    count_class AT_class out = count_class AT_class (str "AAtGc") ∧
    count_class GC_class out = count_class GC_class (str "AAtGc").
Proof.
  assert (valid_sequence (str "AAtGc")) as Hs
    by (vm_compute; repeat constructor).
  split; [exact Hs | exact (reverse_complement_classes _ Hs)].
Defined.

(** C9.  The keys of [complement_map] are exactly the characters of
    [valid_chars].  Hence on every sequence, valid or not,
    [get_reverse_complement] either returns a string or raises the
    validation error, and never raises [KeyError]; and on a sequence over
    the alphabet every subscript [complement_map[base]] succeeds and the
    join returns. *)
Theorem complement_lookup_total (s : list N) :
  dom complement_map = valid_chars ∧
  ((∃ out, get_reverse_complement s = Return out) ∨
   (∃ invalid_chars,
      get_reverse_complement s = Raise (ValueError invalid_chars))) ∧
  (∀ key, get_reverse_complement s ≠ Raise (KeyError key)) ∧
  (valid_sequence s →
   (∀ base, base ∈ s → is_Some (complement_map !! base)) ∧
   ∃ complement, join_complement s = Return complement).
Proof.
  split.
  { apply set_eq. intros c. rewrite elem_of_dom, elem_of_valid_chars.
    destruct (decide (c ∈ alphabet)) as [Hc | Hc].
    - rewrite (complement_map_lookup c Hc). split; eauto.
    - rewrite (complement_map_lookup_None c Hc). split; [|done].
      by intros [? ?]. }
  split; [|split].
  - destruct (valid_sequence_dec s) as [Hs | Hs].
    + left. rewrite (get_reverse_complement_valid s Hs). eauto.
    + right. rewrite (get_reverse_complement_invalid s Hs). eauto.
  - intros key. destruct (valid_sequence_dec s) as [Hs | Hs].
    + by rewrite (get_reverse_complement_valid s Hs).
    + by rewrite (get_reverse_complement_invalid s Hs).
  - intros Hs. split.
    + intros base Hbase.
      assert (base ∈ alphabet) as Hc
        by exact (proj1 (Forall_forall _ _) Hs base Hbase).
      rewrite (complement_map_lookup base Hc). eauto.
    + rewrite (join_complement_valid s Hs). eauto.
Qed.

Lemma complement_lookup_total_witness :
  valid_sequence (str "gATc") ∧
  (∀ base, base ∈ str "gATc" → is_Some (complement_map !! base)) ∧
  ∃ complement, join_complement (str "gATc") = Return complement.
Proof.
  assert (valid_sequence (str "gATc")) as Hs
    by (vm_compute; repeat constructor).
  split; [exact Hs|].
  exact (proj2 (proj2 (proj2 (complement_lookup_total (str "gATc")))) Hs).
Defined.

(** C10.  On two sequences over the alphabet, [get_reverse_complement] of
    their concatenation is the result for the second followed by the
    result for the first. *)
Theorem reverse_complement_app (s t : list N) :
  valid_sequence s →
  valid_sequence t →
  ∃ rs rt,
    get_reverse_complement s = Return rs ∧
    get_reverse_complement t = Return rt ∧
    get_reverse_complement (s ++ t) = Return (rt ++ rs).
Proof.
  intros Hs Ht.
  exists (spec_reverse_complement s), (spec_reverse_complement t).
  split; [by apply get_reverse_complement_valid|].
  split; [by apply get_reverse_complement_valid|].
  rewrite get_reverse_complement_valid by (by apply Forall_app).
  by rewrite spec_reverse_complement_app.
Qed.

Lemma reverse_complement_app_witness :
  valid_sequence (str "ATC") ∧
  valid_sequence (str "gg") ∧
  ∃ rs rt,
    get_reverse_complement (str "ATC") = Return rs ∧
    get_reverse_complement (str "gg") = Return rt ∧
    get_reverse_complement (str "ATC" ++ str "gg") = Return (rt ++ rs).
Proof.
  assert (valid_sequence (str "ATC")) as Hs
    by (vm_compute; repeat constructor).
  assert (valid_sequence (str "gg")) as Ht
    by (vm_compute; repeat constructor).
  split; [exact Hs|]. split; [exact Ht|].
  exact (reverse_complement_app _ _ Hs Ht).
Defined.

(** ** The first version of the function and the validation *)

Lemma join_complement_first_invalid pre c post :
  valid_sequence pre → c ∉ alphabet →
  join_complement (pre ++ c :: post) = Raise (KeyError c).
Proof.
  intros Hpre Hc. induction Hpre as [|b pre Hb _ IH]; simpl.
  - by rewrite (complement_map_lookup_None c Hc).
  - by rewrite (complement_map_lookup b Hb), IH.
Qed.

Lemma first_invalid s :
  ¬ valid_sequence s →
  ∃ pre c post, s = pre ++ c :: post ∧ valid_sequence pre ∧ c ∉ alphabet.
Proof.
  induction s as [|b s IH]; intros Hs.
  - destruct Hs. constructor.
  - destruct (decide (b ∈ alphabet)) as [Hb | Hb].
    + destruct IH as (pre & c & post & -> & Hpre & Hc).
      { intros Hs'. apply Hs. by constructor. }
      exists (b :: pre), c, post. repeat split; [by constructor | done].
    + exists [], b, s. repeat split; [constructor | done].
Qed.

Lemma get_reverse_complement_basic_valid s :
  valid_sequence s →
  get_reverse_complement_basic s = Return (spec_reverse_complement s).
Proof.
  intros Hs. unfold get_reverse_complement_basic.
  by rewrite (join_complement_valid s Hs).
Qed.

Lemma basic_key_error_aux pre c post :
  valid_sequence pre → c ∉ alphabet →
  get_reverse_complement_basic (pre ++ c :: post) = Raise (KeyError c).
Proof.
  intros Hpre Hc. unfold get_reverse_complement_basic.
  by rewrite (join_complement_first_invalid pre c post Hpre Hc).
Qed.

(** X1.  Without the validation the function stops at the first character
    outside the alphabet: it raises [KeyError] for that character,
    whatever follows it. *)
Theorem basic_key_error (pre post : list N) (c : N) :
  valid_sequence pre → c ∉ alphabet →
  get_reverse_complement_basic (pre ++ c :: post) = Raise (KeyError c).
Proof. apply basic_key_error_aux. Qed.

Lemma basic_key_error_witness :
  valid_sequence (str "ATCG") ∧ (ord "X" ∉ alphabet) ∧
  get_reverse_complement_basic (str "ATCG" ++ (ord "X" :: str "xX")) =
    Raise (KeyError (ord "X")).
Proof.
  assert (valid_sequence (str "ATCG")) as Hpre
    by (vm_compute; repeat constructor).
  assert (ord "X" ∉ alphabet) as Hc
    by (by apply (bool_decide_unpack _); vm_compute).
  split; [exact Hpre|]. split; [exact Hc|].
  exact (basic_key_error (str "ATCG") (str "xX") (ord "X") Hpre Hc).
Defined.

(** X2.  The validation changes nothing on the inputs the first version
    handles: both versions return the same results, and the validated
    version raises its [ValueError] exactly where the first version
    raises a [KeyError]. *)
Theorem validation_refines_basic (s : list N) :
  (∀ out, get_reverse_complement s = Return out ↔
          get_reverse_complement_basic s = Return out) ∧
  ((∃ invalid_chars,
      get_reverse_complement s = Raise (ValueError invalid_chars)) ↔
   (∃ key, get_reverse_complement_basic s = Raise (KeyError key))).
Proof.
  destruct (valid_sequence_dec s) as [Hs | Hs].
  - rewrite (get_reverse_complement_valid s Hs),
      (get_reverse_complement_basic_valid s Hs).
    split; [done|]. split; by intros [? ?].
  - rewrite (get_reverse_complement_invalid s Hs).
    destruct (first_invalid s Hs) as (pre & c & post & -> & Hpre & Hc).
    rewrite (basic_key_error_aux pre c post Hpre Hc).
    split; [split; done|]. split; eauto.
Qed.

(** ** More on the transform *)

Lemma get_reverse_complement_Return s out :
  get_reverse_complement s = Return out →
  valid_sequence s ∧ out = spec_reverse_complement s.
Proof.
  destruct (valid_sequence_dec s) as [Hs | Hs].
  - rewrite (get_reverse_complement_valid s Hs). by intros [= <-].
  - by rewrite (get_reverse_complement_invalid s Hs).
Qed.

Lemma get_reverse_complement_Raise s invalid_chars :
  get_reverse_complement s = Raise (ValueError invalid_chars) →
  ¬ valid_sequence s ∧ invalid_chars = list_to_set s ∖ valid_chars.
Proof.
  destruct (valid_sequence_dec s) as [Hs | Hs].
  - by rewrite (get_reverse_complement_valid s Hs).
  - rewrite (get_reverse_complement_invalid s Hs). by intros [= <-].
Qed.

Lemma valid_sequence_no_invalid s :
  valid_sequence s → list_to_set s ∖ valid_chars =@{gset N} ∅.
Proof.
  intros Hs. apply set_eq. intros c.
  rewrite elem_of_difference, elem_of_list_to_set, elem_of_valid_chars.
  split; [|set_solver]. intros [Hc Hn]. destruct Hn.
  exact (proj1 (Forall_forall _ _) Hs c Hc).
Qed.

Lemma complement_base_ne c : c ∈ alphabet → complement_base c ≠ c.
Proof. intros H. letters H; by vm_compute. Qed.

Lemma self_complement_even s :
  valid_sequence s → spec_reverse_complement s = s → Nat.Even (length s).
Proof.
  intros Hs Hfix.
  destruct (Nat.Even_or_Odd (length s)) as [|[k Hk]]; [done|].
  destruct (lookup_lt_is_Some_2 s k) as [c Hc]; [lia|].
  pose proof (spec_reverse_complement_lookup s k c Hc) as Hmid.
  replace (length s - 1 - k)%nat with k in Hmid by lia.
  rewrite Hfix, Hc in Hmid. injection Hmid as Hmid.
  destruct (complement_base_ne c); [|done].
  exact (Forall_lookup_1 _ _ _ _ Hs Hc).
Qed.

(** X3.  The transform is injective: two sequences with the same reverse
    complement are the same sequence. *)
Theorem reverse_complement_injective (s t out : list N) :
  get_reverse_complement s = Return out →
  get_reverse_complement t = Return out →
  s = t.
Proof.
  intros [Hs ->]%get_reverse_complement_Return
         [Ht Heq]%get_reverse_complement_Return.
  rewrite <- (spec_reverse_complement_involutive s Hs), Heq.
  by apply spec_reverse_complement_involutive.
Qed.

Lemma reverse_complement_injective_witness :
  get_reverse_complement (str "AAGC") = Return (str "GCTT") ∧
  str "AAGC" = str "AAGC".
Proof.
  assert (get_reverse_complement (str "AAGC") = Return (str "GCTT")) as Hrun
    by (vm_compute; reflexivity).
  split; [exact Hrun|].
  exact (reverse_complement_injective _ _ _ Hrun Hrun).
Defined.

(** X4.  A sequence that is its own reverse complement has an even
    length: no base is its own complement, so there is no middle
    character. *)
Theorem palindrome_even_length (s : list N) :
  get_reverse_complement s = Return s → Nat.Even (length s).
Proof.
  intros [Hs Heq]%get_reverse_complement_Return.
  by apply self_complement_even.
Qed.

Lemma palindrome_even_length_witness :
  get_reverse_complement (str "GAATTC") = Return (str "GAATTC") ∧
  Nat.Even (length (str "GAATTC")).
Proof.
  assert (get_reverse_complement (str "GAATTC") = Return (str "GAATTC"))
    as Hrun by (vm_compute; reflexivity).
  split; [exact Hrun | exact (palindrome_even_length _ Hrun)].
Defined.

(** X5.  The sequences that are their own reverse complement are exactly
    the sequences made of a valid sequence followed by its reverse
    complement. *)
Theorem palindrome_characterisation (p : list N) :
  get_reverse_complement p = Return p ↔
  ∃ s out, get_reverse_complement s = Return out ∧ p = s ++ out.
Proof.
  split.
  - intros [Hp Heq]%get_reverse_complement_Return.
    destruct (self_complement_even p Hp) as [k Hk]; [done|].
    exists (take k p), (drop k p).
    assert (valid_sequence (take k p)) as Hs by by apply Forall_take.
    rewrite (get_reverse_complement_valid _ Hs), take_drop. split; [|done].
    f_equal.
    assert (take k p ++ drop k p =
            spec_reverse_complement (drop k p) ++
            spec_reverse_complement (take k p)) as Hsplit
      by (by rewrite <- spec_reverse_complement_app, take_drop).
    apply app_inj_2 in Hsplit as [_ Hsplit]; [done|].
    unfold spec_reverse_complement.
    rewrite length_reverse, length_fmap, length_drop, length_take. lia.
  - intros (s & out & [Hs ->]%get_reverse_complement_Return & ->).
    pose proof (spec_reverse_complement_valid s Hs) as Hout.
    rewrite get_reverse_complement_valid by (by apply Forall_app).
    rewrite spec_reverse_complement_app.
    by rewrite spec_reverse_complement_involutive.
Qed.

(** X6.  Reversing the input reverses the output: the transform commutes
    with reversal, so the reverse complement of the reversed sequence is
    the plain complement. *)
Theorem reverse_complement_reverse (s : list N) :
  valid_sequence s →
  ∃ out,
    get_reverse_complement s = Return out ∧
    get_reverse_complement (reverse s) = Return (reverse out) ∧
    reverse out = complement_base <$> s.
Proof.
  intros Hs. exists (spec_reverse_complement s).
  split; [by apply get_reverse_complement_valid|].
  rewrite get_reverse_complement_valid by (by apply Forall_reverse).
  unfold spec_reverse_complement.
  by rewrite fmap_reverse, !reverse_involutive.
Qed.

Lemma reverse_complement_reverse_witness :
  valid_sequence (str "AAGc") ∧
  ∃ out,
    get_reverse_complement (str "AAGc") = Return out ∧
    get_reverse_complement (reverse (str "AAGc")) = Return (reverse out) ∧
    reverse out = complement_base <$> str "AAGc".
Proof.
  assert (valid_sequence (str "AAGc")) as Hs
    by (vm_compute; repeat constructor).
  split; [exact Hs | exact (reverse_complement_reverse _ Hs)].
Defined.

(** X7.  Errors add up under concatenation.  When a sequence is rejected,
    so is every sequence it is a part of: joined with an accepted
    sequence, on either side, it is rejected with the same set of
    characters; joined with another rejected sequence, it is rejected
    with the union of the two sets. *)
Theorem invalid_sequence_app (s t : list N) (invalid_chars : gset N) :
  get_reverse_complement s = Raise (ValueError invalid_chars) →
  (∀ out, get_reverse_complement t = Return out →
     get_reverse_complement (s ++ t) = Raise (ValueError invalid_chars) ∧
     get_reverse_complement (t ++ s) = Raise (ValueError invalid_chars)) ∧
  (∀ invalid_chars',
     get_reverse_complement t = Raise (ValueError invalid_chars') →
     get_reverse_complement (s ++ t) =
       Raise (ValueError (invalid_chars ∪ invalid_chars'))).
Proof.
  intros [Hs ->]%get_reverse_complement_Raise.
  assert (∀ u, ¬ valid_sequence (s ++ u) ∧ ¬ valid_sequence (u ++ s)) as Hn.
  { intros u. split; intros [? ?]%Forall_app; done. }
  split.
  - intros out [Ht _]%get_reverse_complement_Return.
    rewrite !get_reverse_complement_invalid by apply Hn.
    split; rewrite list_to_set_app_L, difference_union_distr_l_L,
      (valid_sequence_no_invalid t Ht).
    + by rewrite union_empty_r_L.
    + by rewrite union_empty_l_L.
  - intros E' [Ht ->]%get_reverse_complement_Raise.
    rewrite get_reverse_complement_invalid by apply Hn.
    by rewrite list_to_set_app_L, difference_union_distr_l_L.
Qed.

Lemma invalid_sequence_app_witness :
  get_reverse_complement (str "AXT") = Raise (ValueError {[ ord "X" ]}) ∧
  get_reverse_complement (str "AXT" ++ str "GG") =
    Raise (ValueError {[ ord "X" ]}) ∧
  get_reverse_complement (str "GG" ++ str "AXT") =
    Raise (ValueError {[ ord "X" ]}).
Proof.
  assert (get_reverse_complement (str "AXT") =
            Raise (ValueError {[ ord "X" ]})) as Hs
    by (vm_compute; reflexivity).
  assert (get_reverse_complement (str "GG") = Return (str "CC")) as Ht
    by (vm_compute; reflexivity).
  split; [exact Hs|].
  exact (proj1 (invalid_sequence_app _ (str "GG") _ Hs) _ Ht).
Defined.

(** ** The interactive shell *)

Section shell.
Context `{rt : Runtime}.

Lemma lstrip_spaces ws text :
  Forall (λ c, isspace c = true) ws → lstrip (ws ++ text) = lstrip text.
Proof. induction 1 as [|c ws Hc _ IH]; simpl; [done|]. by rewrite Hc. Qed.

Lemma lstrip_valid s text :
  alphabet_no_space → valid_sequence s → s ≠ [] →
  lstrip (s ++ text) = s ++ text.
Proof.
  intros Hsp Hs Hne. destruct Hs as [|c s Hc _]; [done|].
  simpl. by rewrite (Hsp c Hc).
Qed.

Lemma strip_padded ws1 s ws2 :
  alphabet_no_space → valid_sequence s → s ≠ [] →
  Forall (λ c, isspace c = true) ws1 →
  Forall (λ c, isspace c = true) ws2 →
  strip (ws1 ++ s ++ ws2) = s.
Proof.
  intros Hsp Hs Hne Hws1 Hws2. unfold strip.
  rewrite (lstrip_spaces ws1 _ Hws1), (lstrip_valid s ws2 Hsp Hs Hne).
  rewrite reverse_app, lstrip_spaces by (by apply Forall_reverse).
  rewrite <- (app_nil_r (reverse s)), lstrip_valid, app_nil_r.
  - apply reverse_involutive.
  - done.
  - by apply Forall_reverse.
  - intros Hnil. apply Hne. by rewrite <- (reverse_involutive s), Hnil.
Qed.

Lemma strip_blank ws :
  Forall (λ c, isspace c = true) ws → strip ws = [].
Proof.
  intros Hws. unfold strip.
  rewrite <- (app_nil_r ws), (lstrip_spaces ws [] Hws). done.
Qed.

Lemma valid_not_exit_word s :
  alphabet_lower → valid_sequence s → s ≠ [] →
  lower s ∉ [str "quit"; str "exit"; str ""].
Proof.
  intros Hlow Hs Hne. rewrite (Hlow s Hs).
  destruct Hs as [|c s Hc _]; [done|].
  rewrite !elem_of_cons, elem_of_nil.
  intros [Hq | [Hq | [Hq | []]]]; [| |discriminate Hq];
    injection Hq as Hq _; letters Hc; discriminate Hq.
Qed.

Lemma main_loop_valid_line ws1 s ws2 rest :
  alphabet_no_space → alphabet_lower →
  valid_sequence s → s ≠ [] →
  Forall (λ c, isspace c = true) ws1 →
  Forall (λ c, isspace c = true) ws2 →
  main_loop (Line (ws1 ++ s ++ ws2) :: rest) =
    say [ Prompt (str "Enter DNA sequence: ");
          Print (str "Original:          5'-" ++ s ++ str "-3'");
          Print (str "Reverse complement: 3'-" ++
                 spec_reverse_complement s ++ str "-5'");
          Print [] ]
      (main_loop rest).
Proof.
  intros Hsp Hlow Hs Hne Hws1 Hws2. simpl.
  rewrite (strip_padded ws1 s ws2 Hsp Hs Hne Hws1 Hws2).
  rewrite bool_decide_eq_false_2 by (by apply valid_not_exit_word).
  by rewrite (get_reverse_complement_valid s Hs).
Qed.

Lemma main_loop_ending stdin :
  ending (main_loop stdin) =
    if existsb stops stdin then Finished else RaisedEOFError.
Proof.
  induction stdin as [|[text|] rest IH]; simpl; [done| |done].
  destruct (bool_decide _); simpl; [done|].
  destruct (valid_sequence_dec (strip text)) as [Hs | Hs].
  - by rewrite (get_reverse_complement_valid _ Hs).
  - by rewrite (get_reverse_complement_invalid _ Hs).
Qed.

Lemma main_loop_stops pre e post :
  Forall (λ e, stops e = false) pre → stops e = true →
  unread (main_loop (pre ++ e :: post)) = post ∧
  stdout (main_loop (pre ++ e :: post)) = stdout (main_loop (pre ++ [e])).
Proof.
  intros Hpre He. induction Hpre as [|[text|] pre Hx _ [IHu IHo]]; simpl.
  - destruct e as [text|]; simpl in *; [|done]. by rewrite He.
  - simpl in Hx. rewrite Hx.
    destruct (valid_sequence_dec (strip text)) as [Hs | Hs].
    + rewrite (get_reverse_complement_valid _ Hs); simpl.
      by rewrite IHu, IHo.
    + rewrite (get_reverse_complement_invalid _ Hs); simpl.
      by rewrite IHu, IHo.
  - done.
Qed.

(** X8.  The shell never ends with an error of the transform.  Whatever
    it reads, [main] ends normally when the input holds an interrupt or a
    line that is an exit word or blank once stripped and lowercased, and
    ends with [EOFError] when the input runs out before that; the
    [ValueError] of the transform is always caught and [KeyError] never
    arises. *)
Theorem main_ending (stdin : list stdin_event) :
  ending (main stdin) =
    (if existsb stops stdin then Finished else RaisedEOFError) ∧
  ∀ e, ending (main stdin) ≠ Raised e.
Proof.
  unfold main; simpl. rewrite main_loop_ending.
  split; [done|]. by destruct (existsb stops stdin).
Qed.

(** X9.  The shell stops at the first stopping event: what follows it in
    the input is left unread and changes nothing of what was printed. *)
Theorem main_stops_reading (pre post : list stdin_event) (e : stdin_event) :
  Forall (λ e, stops e = false) pre → stops e = true →
  unread (main (pre ++ e :: post)) = post ∧
  stdout (main (pre ++ e :: post)) = stdout (main (pre ++ [e])).
Proof.
  intros Hpre He. unfold main; simpl.
  destruct (main_loop_stops pre e post Hpre He) as [-> ->]. done.
Qed.

(** X10.  A line holding a non-empty sequence of bases, with any
    whitespace around it, is never taken for an exit word: the shell
    prints the sequence without the whitespace, then its reverse
    complement, then an empty line, and goes on with the next input. *)
Theorem shell_valid_line (ws1 s ws2 : list N) (rest : list stdin_event) :
  alphabet_no_space → alphabet_lower →
  valid_sequence s → s ≠ [] →
  Forall (λ c, isspace c = true) ws1 →
  Forall (λ c, isspace c = true) ws2 →
  main_loop (Line (ws1 ++ s ++ ws2) :: rest) =
    say [ Prompt (str "Enter DNA sequence: ");
          Print (str "Original:          5'-" ++ s ++ str "-3'");
          Print (str "Reverse complement: 3'-" ++
                 reverse (complement_base <$> s) ++ str "-5'");
          Print [] ]
      (main_loop rest).
Proof. apply main_loop_valid_line. Qed.

(** X11.  A line that is not a stopping event and whose stripped text has
    a character outside the alphabet is answered by the error message,
    which renders the set of all offending characters of the stripped
    text, and by the hint; the shell then goes on with the next input. *)
Theorem shell_invalid_line (text : list N) (rest : list stdin_event) :
  stops (Line text) = false →
  ¬ valid_sequence (strip text) →
  ∃ invalid_chars,
    (∀ c, c ∈ invalid_chars ↔ c ∈ strip text ∧ c ∉ alphabet) ∧
    main_loop (Line text :: rest) =
      say [ Prompt (str "Enter DNA sequence: ");
            Print (str "Error: " ++
                   str "Invalid characters found in sequence: " ++
                   repr_set invalid_chars);
            Print (str "Please enter a valid DNA sequence using only A, T, G, C"
                   ++ nl) ]
        (main_loop rest).
Proof.
  intros Hgo Hs. exists (list_to_set (strip text) ∖ valid_chars). split.
  - intros c. rewrite elem_of_difference, elem_of_list_to_set.
    by rewrite elem_of_valid_chars.
  - simpl in *. rewrite Hgo.
    by rewrite (get_reverse_complement_invalid _ Hs).
Qed.

(** X12.  A line that is empty or made of whitespace only ends the
    session: the shell prints its farewell and reads nothing more, so
    that the transform is never run on the empty sequence. *)
Theorem shell_blank_line (ws : list N) (rest : list stdin_event) :
  alphabet_lower →
  Forall (λ c, isspace c = true) ws →
  main_loop (Line ws :: rest) =
    say [ Prompt (str "Enter DNA sequence: "); Print (str "Goodbye!") ]
      (ended rest Finished).
Proof.
  intros Hlow Hws. simpl. rewrite (strip_blank ws Hws).
  rewrite (Hlow [] (Forall_nil_2 _)). done.
Qed.

(** X13.  A session round trip: when a non-empty sequence of bases is
    entered and the reverse complement the shell printed is entered
    next, the second answer shows the first sequence again. *)
Theorem shell_round_trip (s : list N) (rest : list stdin_event) :
  alphabet_no_space → alphabet_lower →
  valid_sequence s → s ≠ [] →
  ∃ out,
    get_reverse_complement s = Return out ∧
    main_loop (Line s :: Line out :: rest) =
      say [ Prompt (str "Enter DNA sequence: ");
            Print (str "Original:          5'-" ++ s ++ str "-3'");
            Print (str "Reverse complement: 3'-" ++ out ++ str "-5'");
            Print [];
            Prompt (str "Enter DNA sequence: ");
            Print (str "Original:          5'-" ++ out ++ str "-3'");
            Print (str "Reverse complement: 3'-" ++ s ++ str "-5'");
            Print [] ]
        (main_loop rest).
Proof.
  intros Hsp Hlow Hs Hne. exists (spec_reverse_complement s).
  split; [by apply get_reverse_complement_valid|].
  pose proof (spec_reverse_complement_valid s Hs) as Hout.
  assert (spec_reverse_complement s ≠ []) as Hne'.
  { intros Hnil. apply Hne.
    by rewrite <- (spec_reverse_complement_involutive s Hs), Hnil. }
  pose proof (main_loop_valid_line [] s [] (Line (spec_reverse_complement s) :: rest)
                Hsp Hlow Hs Hne (Forall_nil_2 _) (Forall_nil_2 _)) as H1.
  pose proof (main_loop_valid_line [] (spec_reverse_complement s) [] rest
                Hsp Hlow Hout Hne' (Forall_nil_2 _) (Forall_nil_2 _)) as H2.
  rewrite app_nil_l, app_nil_r in H1, H2.
  rewrite H1, H2, (spec_reverse_complement_involutive s Hs). done.
Qed.

(** X14.  The script.  Its self-test never fails: for every input, the
    script prints the heading, the five test sequences, each padded to
    fifteen columns and followed by its reverse complement, and an empty
    line; it reads nothing for that, and then behaves as [main]. *)
Theorem script_runs_main (stdin : list stdin_event) :
  stdout (script stdin) =
    [ Print (str "Test Results:");
      Print (str "----------------------------------------");
      Print (str "ATCG            -> CGAT");
      Print (str "AAATTTGGGCCC    -> GGGCCCAAATTT");
      Print (str "GAATTC          -> GAATTC");
      Print (str "AAGCTT          -> AAGCTT");
      Print (str "atcg            -> cgat");
      Print [] ] ++ stdout (main stdin) ∧
  unread (script stdin) = unread (main stdin) ∧
  ending (script stdin) = ending (main stdin).
Proof. done. Qed.

End shell.

(** ** The shell on plain text *)

Lemma ascii_no_space : alphabet_no_space (rt := ascii_runtime).
Proof. intros c Hc. letters Hc; reflexivity. Qed.

Lemma ascii_lower : alphabet_lower (rt := ascii_runtime).
Proof. by intros s _. Qed.

Example run_main :
  main (rt := ascii_runtime)
    [ Line (str " atcg "); Line (str "AT CG"); Line (str "Exit");
      Line (str "GG") ] =
  {| stdout :=
       [ Print (str "DNA Reverse Complement Tool");
         Print (str "==============================");
         Print (str "Enter DNA sequences (A, T, G, C only)");
         Print (str "Type 'quit' or 'exit' to stop" ++ nl);
         Prompt (str "Enter DNA sequence: ");
         Print (str "Original:          5'-atcg-3'");
         Print (str "Reverse complement: 3'-cgat-5'");
         Print [];
         Prompt (str "Enter DNA sequence: ");
         Print (str "Error: Invalid characters found in sequence: {' '}");
         Print (str "Please enter a valid DNA sequence using only A, T, G, C"
                ++ nl);
         Prompt (str "Enter DNA sequence: ");
         Print (str "Goodbye!") ];
     unread := [ Line (str "GG") ];
     ending := Finished |}.
Proof. vm_compute. reflexivity. Qed.

Lemma main_stops_reading_witness :
  unread (main (rt := ascii_runtime)
            ([Line (str "ATCG")] ++ Line (str " Quit ") :: [Line (str "GG")])) =
    [Line (str "GG")] ∧
  stdout (main (rt := ascii_runtime)
            ([Line (str "ATCG")] ++ Line (str " Quit ") :: [Line (str "GG")])) =
    stdout (main (rt := ascii_runtime)
              ([Line (str "ATCG")] ++ [Line (str " Quit ")])).
Proof.
  apply (main_stops_reading (rt := ascii_runtime)).
  - repeat constructor.
  - reflexivity.
Defined.

Lemma shell_valid_line_witness :
  main_loop (rt := ascii_runtime)
    (Line (str "  " ++ str "ATCG" ++ [9]) :: [Interrupt]) =
    say [ Prompt (str "Enter DNA sequence: ");
          Print (str "Original:          5'-" ++ str "ATCG" ++ str "-3'");
          Print (str "Reverse complement: 3'-" ++
                 reverse (complement_base <$> str "ATCG") ++ str "-5'");
          Print [] ]
      (main_loop (rt := ascii_runtime) [Interrupt]).
Proof.
  apply (shell_valid_line (rt := ascii_runtime)).
  - exact ascii_no_space.
  - exact ascii_lower.
  - vm_compute. repeat constructor.
  - discriminate.
  - repeat constructor.
  - repeat constructor.
Defined.

Lemma shell_invalid_line_witness :
  ∃ invalid_chars,
    (∀ c, c ∈ invalid_chars ↔
          c ∈ strip (rt := ascii_runtime) (str "AT CG") ∧ c ∉ alphabet) ∧
    main_loop (rt := ascii_runtime) (Line (str "AT CG") :: []) =
      say [ Prompt (str "Enter DNA sequence: ");
            Print (str "Error: " ++
                   str "Invalid characters found in sequence: " ++
                   repr_set (Runtime := ascii_runtime) invalid_chars);
            Print (str "Please enter a valid DNA sequence using only A, T, G, C"
                   ++ nl) ]
        (main_loop (rt := ascii_runtime) []).
Proof.
  apply (shell_invalid_line (rt := ascii_runtime)).
  - reflexivity.
  - by apply (bool_decide_unpack _); vm_compute.
Defined.

Lemma shell_blank_line_witness :
  main_loop (rt := ascii_runtime) (Line (str "   ") :: [Line (str "ATCG")]) =
    say [ Prompt (str "Enter DNA sequence: "); Print (str "Goodbye!") ]
      (ended [Line (str "ATCG")] Finished).
Proof.
  apply (shell_blank_line (rt := ascii_runtime)).
  - exact ascii_lower.
  - repeat constructor.
Defined.

Lemma shell_round_trip_witness :
  ∃ out,
    get_reverse_complement (str "AAGC") = Return out ∧
    main_loop (rt := ascii_runtime) (Line (str "AAGC") :: Line out :: []) =
      say [ Prompt (str "Enter DNA sequence: ");
            Print (str "Original:          5'-" ++ str "AAGC" ++ str "-3'");
            Print (str "Reverse complement: 3'-" ++ out ++ str "-5'");
            Print [];
            Prompt (str "Enter DNA sequence: ");
            Print (str "Original:          5'-" ++ out ++ str "-3'");
            Print (str "Reverse complement: 3'-" ++ str "AAGC" ++ str "-5'");
            Print [] ]
        (main_loop (rt := ascii_runtime) []).
Proof.
  apply (shell_round_trip (rt := ascii_runtime)).
  - exact ascii_no_space.
  - exact ascii_lower.
  - vm_compute. repeat constructor.
  - discriminate.
Defined.
